(** * evgodev/smtp: a client over net/smtp and a MIME message builder

    A shallow embedding of the Go package [smtp] (files [smtp.go] and
    [email.go]) and the verification of its connection life cycle, its
    address validation and its message encoder.

    Conventions.
    - A Go [string] is a [string] (a sequence of 8-bit characters), a Go
      [[]byte] is a [list byte].
    - A method with a pointer receiver [(c *Client)] takes the client value
      and returns the client value it leaves behind.
    - Every call into [net] or [net/smtp] that talks to the network appends
      one [NetOp] to a trace; what the peer answers is decided by a [Server],
      an arbitrary function of the history so far. *)

From Stdlib Require Import ZArith List String Ascii Bool Lia.
From Stdlib Require Import Strings.Byte.
From Stdlib Require DecimalString.
From coqutil Require Import Z.bitblast.
Import ListNotations.

Local Open Scope list_scope.
Local Open Scope string_scope.

(* ================================================================== *)
(** * Part I: definitions *)
(* ================================================================== *)

(** ** Characters and strings *)

Definition CR : ascii := "013"%char.
Definition LF : ascii := "010"%char.
Definition DQUOTE : ascii := "034"%char.

(** The Go literal ["\r\n"]. *)
Definition crlf : string := String CR (String LF EmptyString).

(** [strings.ContainsAny(s, chars)]: some character of [s] occurs in
    [chars]. *)
Fixpoint IndexByte (s : string) (c : ascii) : bool :=
  match s with
  | EmptyString => false
  | String d s' => if Ascii.eqb d c then true else IndexByte s' c
  end.

Fixpoint ContainsAny (s chars : string) : bool :=
  match s with
  | EmptyString => false
  | String c s' => if IndexByte chars c then true else ContainsAny s' chars
  end.

(** [strings.Join(elems, sep)]. *)
Definition Join (elems : list string) (sep : string) : string :=
  String.concat sep elems.

(** [strconv.Itoa]. *)
Definition Itoa (i : Z) : string :=
  DecimalString.NilZero.string_of_int (Z.to_int i).

(** [net.JoinHostPort]: a host with a colon is taken for an IPv6 literal
    and bracketed. *)
Definition JoinHostPort (host port : string) : string :=
  if IndexByte host ":"%char
  then "[" ++ host ++ "]:" ++ port
  else host ++ ":" ++ port.

(** ** Errors *)

Definition extStartTLS : string := "STARTTLS".
Definition extAuth : string := "AUTH".

(** The package's three sentinel errors, the errors that come out of [net]
    and [net/smtp], and [fmt.Errorf(prefix + ": %w", cause)]. *)
Inductive error : Type :=
| ErrUnsupportedAuthExt
| ErrFoundCRLF
| ErrClientNotInitialized
| ErrLibrary (msg : string)
| Errorf (prefix : string) (cause : error).

(** The [Error()] method. *)
Fixpoint Error (e : error) : string :=
  match e with
  | ErrUnsupportedAuthExt =>
      "extension is unsupported by SMTP-server, extension: " ++ extAuth
  | ErrFoundCRLF => "a line must not contain CR or LF"
  | ErrClientNotInitialized => "client not initialized"
  | ErrLibrary msg => msg
  | Errorf prefix cause => prefix ++ ": " ++ Error cause
  end.

Fixpoint error_eqb (a b : error) : bool :=
  match a, b with
  | ErrUnsupportedAuthExt, ErrUnsupportedAuthExt => true
  | ErrFoundCRLF, ErrFoundCRLF => true
  | ErrClientNotInitialized, ErrClientNotInitialized => true
  | ErrLibrary m, ErrLibrary n => String.eqb m n
  | Errorf p a', Errorf q b' => String.eqb p q && error_eqb a' b'
  | _, _ => false
  end.

(** [errors.Is(err, target)]: [target] is [err] or is in its chain of
    wrapped causes. *)
Fixpoint Is (err target : error) : bool :=
  error_eqb err target ||
  match err with
  | Errorf _ cause => Is cause target
  | _ => false
  end.

(** ** The network: operations, traces and servers *)

(** [context.Context], as far as the dialer looks at it. *)
Record Context : Type := { ctx_done : bool }.
Definition Background : Context := {| ctx_done := false |}.

(** [smtp.Auth]; the only implementation the package builds is the one of
    [smtp.PlainAuth(identity, username, password, host)]. *)
Inductive Auth : Type :=
| PlainAuth (identity username password host : string).

Record tlsConfig : Type := {
  ServerName : string;
  MinVersion : Z
}.
Definition VersionTLS12 : Z := 0x0303.

(** A [net.Conn] and the [*smtp.Client] built over it are named by the
    number of the connection. *)
Definition Conn : Type := nat.
Definition smtpClient : Type := nat.

(** One entry per library call that performs network I/O. *)
Inductive NetOp : Type :=
| OpDial (ctx : Context) (timeout : Z) (network addr : string)
| OpNewClient (conn : Conn) (host : string)
| OpHello (h : smtpClient) (localName : string)
| OpStartTLS (h : smtpClient) (config : tlsConfig)
| OpAuth (h : smtpClient) (a : Auth)
| OpNoop (h : smtpClient)
| OpMail (h : smtpClient) (from : string)
| OpRcpt (h : smtpClient) (to : string)
| OpData (h : smtpClient)
| OpWrite (h : smtpClient) (msg : list byte)
| OpCloseData (h : smtpClient)
| OpQuit (h : smtpClient).

(** The trace of the I/O performed so far, most recent operation first. *)
Definition Trace : Type := list NetOp.

(** The peer and the network between: given the history, [reply] tells
    whether the next operation fails ([Some err]) or succeeds ([None]), and
    [advertised] is the extension table the handle holds after its last
    EHLO. *)
Record Server : Type := {
  reply : Trace -> NetOp -> option error;
  advertised : Trace -> smtpClient -> string -> bool
}.

(** Computations that read the server and extend the trace. *)
Definition M (A : Type) : Type := Server -> Trace -> A * Trace.

Definition ret {A} (a : A) : M A := fun _ t => (a, t).

Definition bind {A B} (m : M A) (k : A -> M B) : M B :=
  fun srv t => let (a, t') := m srv t in k a srv t'.

Notation "x <- m ;; k" := (bind m (fun x => k))
  (at level 61, m at next level, right associativity).

(** Perform one operation: ask the server, record the operation. *)
Definition io (op : NetOp) : M (option error) :=
  fun srv t => (reply srv t op, op :: t).

Definition dialTimeout : Z := 30 * 1000000000.

(** [net.Dialer{Timeout: timeout}.DialContext(ctx, network, addr)]. *)
Definition DialContext (timeout : Z) (ctx : Context) (network addr : string)
  : M (Conn + error) :=
  fun srv t =>
    match reply srv t (OpDial ctx timeout network addr) with
    | Some err => (inr err, OpDial ctx timeout network addr :: t)
    | None => (inl (List.length t), OpDial ctx timeout network addr :: t)
    end.

(** [smtp.NewClient(conn, host)]: reads the greeting of the server. *)
Definition smtp_NewClient (conn : Conn) (host : string)
  : M (smtpClient + error) :=
  e <- io (OpNewClient conn host) ;;
  ret match e with
      | Some err => inr err
      | None => inl conn
      end.

Definition smtp_Hello (h : smtpClient) (localName : string) :=
  io (OpHello h localName).
Definition smtp_StartTLS (h : smtpClient) (config : tlsConfig) :=
  io (OpStartTLS h config).
Definition smtp_Auth (h : smtpClient) (a : Auth) := io (OpAuth h a).
Definition smtp_Noop (h : smtpClient) := io (OpNoop h).
Definition smtp_Mail (h : smtpClient) (from : string) := io (OpMail h from).
Definition smtp_Rcpt (h : smtpClient) (to : string) := io (OpRcpt h to).
Definition smtp_Data (h : smtpClient) := io (OpData h).
Definition w_Write (h : smtpClient) (msg : list byte) := io (OpWrite h msg).
Definition w_Close (h : smtpClient) := io (OpCloseData h).
Definition smtp_Quit (h : smtpClient) := io (OpQuit h).

(** [client.Extension(ext)] after [Hello]: a lookup in the table the handle
    holds, no I/O. *)
Definition smtp_Extension (h : smtpClient) (ext : string) : M bool :=
  fun srv t => (advertised srv t h ext, t).

(** ** The client (smtp.go) *)

Record Options : Type := {
  Host : string;
  Port : Z;
  Login : string;
  Password : string
}.

Record Client : Type := {
  opts : Options;
  auth : option Auth;
  client : option smtpClient
}.

(** The assignment [c.client = h]. *)
Definition set_client (c : Client) (h : smtpClient) : Client :=
  {| opts := opts c; auth := auth c; client := Some h |}.

Definition NewClient (o : Options) : Client :=
  {| opts := o;
     auth := Some (PlainAuth "" (Login o) (Password o) (Host o));
     client := None |}.

Definition Connect (ctx : Context) (c : Client) : M (option error * Client) :=
  let addr := JoinHostPort (Host (opts c)) (Itoa (Port (opts c))) in
  r <- DialContext dialTimeout ctx "tcp" addr ;;
  match r with
  | inr err =>
      ret (Some (Errorf ("failed to dialer.DialContext, address: " ++ addr)
                        err), c)
  | inl conn =>
  r <- smtp_NewClient conn (Host (opts c)) ;;
  match r with
  | inr err => ret (Some (Errorf "failed to smtp.NewClient" err), c)
  | inl h =>
  e <- smtp_Hello h (Host (opts c)) ;;
  match e with
  | Some err => ret (Some (Errorf "failed to client.Hello" err), c)
  | None =>
  ok <- smtp_Extension h extStartTLS ;;
  e <- (if ok
        then smtp_StartTLS h {| ServerName := Host (opts c);
                                MinVersion := VersionTLS12 |}
        else ret None) ;;
  match e with
  | Some err => ret (Some (Errorf "failed to client.StartTLS" err), c)
  | None =>
  match auth c with
  | Some a =>
      ok <- smtp_Extension h extAuth ;;
      if negb ok then ret (Some ErrUnsupportedAuthExt, c)
      else
        e <- smtp_Auth h a ;;
        match e with
        | Some err => ret (Some (Errorf "failed to client.Auth" err), c)
        | None => ret (None, set_client c h)
        end
  | None => ret (None, set_client c h)
  end
  end
  end
  end
  end.

Definition EnsureConnected (ctx : Context) (c : Client)
  : M (option error * Client) :=
  match client c with
  | Some h =>
      e <- smtp_Noop h ;;
      match e with
      | Some _ => Connect ctx c
      | None => ret (None, c)
      end
  | None => Connect ctx c
  end.

Definition validateLine (line : string) : option error :=
  if ContainsAny line crlf then Some ErrFoundCRLF else None.

(** [for _, recp := range to { if err := validateLine(recp) ... }]. *)
Fixpoint validateRecipients (to : list string) : option error :=
  match to with
  | [] => None
  | recp :: rest =>
      match validateLine recp with
      | Some err => Some (Errorf "failed to validateLine" err)
      | None => validateRecipients rest
      end
  end.

(** [for _, addr := range to { if err := c.client.Rcpt(addr) ... }]. *)
Fixpoint rcptRecipients (h : smtpClient) (to : list string)
  : M (option error) :=
  match to with
  | [] => ret None
  | addr :: rest =>
      e <- smtp_Rcpt h addr ;;
      match e with
      | Some err => ret (Some (Errorf "failed to client.Rcpt" err))
      | None => rcptRecipients h rest
      end
  end.

Definition Send (c : Client) (to : list string) (from : string)
  (msg : list byte) : M (option error * Client) :=
  match validateLine from with
  | Some err => ret (Some (Errorf "failed to validateLine" err), c)
  | None =>
  match validateRecipients to with
  | Some err => ret (Some err, c)
  | None =>
  match client c with
  | None => ret (Some ErrClientNotInitialized, c)
  | Some h =>
  e <- smtp_Mail h from ;;
  match e with
  | Some err => ret (Some (Errorf "failed to client.Mail" err), c)
  | None =>
  e <- rcptRecipients h to ;;
  match e with
  | Some err => ret (Some err, c)
  | None =>
  e <- smtp_Data h ;;
  match e with
  | Some err => ret (Some (Errorf "failed to client.Data" err), c)
  | None =>
  e <- w_Write h msg ;;
  match e with
  | Some err => ret (Some (Errorf "failed to write message" err), c)
  | None =>
  e <- w_Close h ;;
  match e with
  | Some err => ret (Some (Errorf "failed to close message" err), c)
  | None => ret (None, c)
  end
  end
  end
  end
  end
  end
  end
  end.

Definition Close (c : Client) : M (option error * Client) :=
  match client c with
  | Some h => e <- smtp_Quit h ;; ret (e, c)
  | None => ret (None, c)
  end.

(** ** encoding/base64, the standard padded encoding *)

Module base64.

Definition encodeStd : string :=
  "ABCDEFGHIJKLMNOPQRSTUVWXYZabcdefghijklmnopqrstuvwxyz0123456789+/".

(** [StdPadding], the character ['=']. *)
Definition StdPadding : byte := x3d.

(** The conversion [uint(b)]. *)
Definition uint (b : byte) : Z := Z.of_N (Byte.to_N b).

(** The conversion [byte(v)], which keeps the low eight bits. *)
Definition to_byte (v : Z) : byte :=
  match Byte.of_N (Z.to_N (Z.land v 0xFF)) with
  | Some b => b
  | None => x00
  end.

(** [enc.encode[i]]. *)
Definition encode_at (i : Z) : byte :=
  nth (Z.to_nat i) (list_byte_of_string encodeStd) x00.

(** [StdEncoding.EncodedLen(n)]. *)
Definition EncodedLen (n : Z) : Z := (n + 2) / 3 * 4.

(** [StdEncoding.Encode(dst, src)], returning what it writes to [dst]:
    three source bytes make four characters, and a last block of one or
    two bytes is padded. *)
Fixpoint Encode (src : list byte) : list byte :=
  match src with
  | [] => []
  | [s0] =>
      let val := Z.shiftl (uint s0) 16 in
      [ encode_at (Z.land (Z.shiftr val 18) 0x3F);
        encode_at (Z.land (Z.shiftr val 12) 0x3F);
        StdPadding;
        StdPadding ]
  | [s0; s1] =>
      let val := Z.lor (Z.shiftl (uint s0) 16) (Z.shiftl (uint s1) 8) in
      [ encode_at (Z.land (Z.shiftr val 18) 0x3F);
        encode_at (Z.land (Z.shiftr val 12) 0x3F);
        encode_at (Z.land (Z.shiftr val 6) 0x3F);
        StdPadding ]
  | s0 :: s1 :: s2 :: rest =>
      let val := Z.lor (Z.lor (Z.shiftl (uint s0) 16) (Z.shiftl (uint s1) 8))
                       (uint s2) in
      encode_at (Z.land (Z.shiftr val 18) 0x3F)
      :: encode_at (Z.land (Z.shiftr val 12) 0x3F)
      :: encode_at (Z.land (Z.shiftr val 6) 0x3F)
      :: encode_at (Z.land val 0x3F)
      :: Encode rest
  end.

(** [enc.decodeMap[c]]: the position of [c] in the alphabet, [0xFF] for a
    character that is not in it. *)
Fixpoint index_from (i : Z) (alphabet : list byte) (c : byte) : Z :=
  match alphabet with
  | [] => 0xFF
  | a :: alphabet' =>
      if Byte.eqb a c then i else index_from (i + 1) alphabet' c
  end.

Definition decodeMap (c : byte) : Z :=
  index_from 0 (list_byte_of_string encodeStd) c.

(** The value [decodeQuantum] assembles from four 6-bit digits. *)
Definition quantum (d0 d1 d2 d3 : Z) : Z :=
  Z.lor (Z.lor (Z.lor (Z.shiftl d0 18) (Z.shiftl d1 12)) (Z.shiftl d2 6)) d3.

(** [StdEncoding.Decode] on input without line breaks: groups of four
    characters, padding only at the end of the last group, [None] for the
    inputs on which the Go decoder reports a [CorruptInputError]. *)
Fixpoint Decode (src : list byte) : option (list byte) :=
  match src with
  | [] => Some []
  | c0 :: c1 :: c2 :: c3 :: rest =>
      let d0 := decodeMap c0 in
      let d1 := decodeMap c1 in
      if (d0 =? 0xFF)%Z || (d1 =? 0xFF)%Z then None
      else if Byte.eqb c2 StdPadding then
        match rest with
        | [] =>
            if Byte.eqb c3 StdPadding
            then Some [to_byte (Z.shiftr (quantum d0 d1 0 0) 16)]
            else None
        | _ :: _ => None
        end
      else
        let d2 := decodeMap c2 in
        if (d2 =? 0xFF)%Z then None
        else if Byte.eqb c3 StdPadding then
          match rest with
          | [] =>
              let val := quantum d0 d1 d2 0 in
              Some [to_byte (Z.shiftr val 16); to_byte (Z.shiftr val 8)]
          | _ :: _ => None
          end
        else
          let d3 := decodeMap c3 in
          if (d3 =? 0xFF)%Z then None
          else
            let val := quantum d0 d1 d2 d3 in
            match Decode rest with
            | Some out =>
                Some (to_byte (Z.shiftr val 16) :: to_byte (Z.shiftr val 8)
                      :: to_byte val :: out)
            | None => None
            end
  | _ => None
  end.

End base64.

(** ** The message builder (email.go) *)

Definition boundary : string := "mail-boundary".

Record attachment : Type := {
  name : string;
  data : list byte
}.

Record Email : Type := {
  to : list string;
  from : string;
  subject : string;
  body : string;
  attachments : list attachment
}.

Definition NewEmail (to : list string) (from subject body : string) : Email :=
  {| to := to; from := from; subject := subject; body := body;
     attachments := [] |}.

(** [e.attachments = append(e.attachments, attachment{name, data})]. *)
Definition Attach (e : Email) (name : string) (data : list byte) : Email :=
  {| to := to e; from := from e; subject := subject e; body := body e;
     attachments :=
       (attachments e ++ [ {| name := name; data := data |} ])%list |}.

(** [bytes.Buffer] with its [WriteString], [Write] and [Bytes]. *)
Definition Buffer : Type := list byte.
Definition WriteString (buf : Buffer) (s : string) : Buffer :=
  (buf ++ list_byte_of_string s)%list.
Definition Write (buf : Buffer) (p : list byte) : Buffer := (buf ++ p)%list.
Definition Bytes (buf : Buffer) : list byte := buf.

(** The body of the loop [for _, atch := range e.attachments]. *)
Definition writeAttachment (buf : Buffer) (atch : attachment) : Buffer :=
  let buf := WriteString buf (crlf ++ crlf ++ "--" ++ boundary ++ crlf) in
  let buf := WriteString buf
    ("Content-Type: text/plain; charset=" ++ String DQUOTE "utf-8"
     ++ String DQUOTE crlf) in
  let buf := WriteString buf ("Content-Transfer-Encoding: base64" ++ crlf) in
  let buf := WriteString buf
    ("Content-Disposition: attachment; filename=" ++ name atch ++ crlf) in
  let buf := WriteString buf
    ("Content-ID: <" ++ name atch ++ ">" ++ crlf ++ crlf) in
  let b := base64.Encode (data atch) in
  Write buf b.

Definition Build (e : Email) : list byte :=
  let buf : Buffer := [] in
  let buf := WriteString buf ("From: " ++ from e ++ crlf) in
  let buf := WriteString buf ("To: " ++ Join (to e) ";" ++ crlf) in
  let buf := WriteString buf ("Subject: " ++ subject e ++ crlf) in
  let buf := WriteString buf ("MIME-Version: 1.0" ++ crlf) in
  let buf := WriteString buf
    ("Content-Type: multipart/mixed; boundary=" ++ boundary ++ crlf) in
  let buf := WriteString buf (crlf ++ "--" ++ boundary ++ crlf) in
  let buf := WriteString buf
    ("Content-Type: text/plain; charset=" ++ String DQUOTE "utf-8"
     ++ String DQUOTE crlf) in
  let buf := WriteString buf (crlf ++ body e) in
  let buf := fold_left writeAttachment (attachments e) buf in
  let buf := WriteString buf (crlf ++ crlf ++ "--" ++ boundary ++ "--") in
  Bytes buf.

(** ** Notions the statements use *)

(** A string has a carriage return or a line feed somewhere. *)
Definition has_CR_or_LF (s : string) : Prop :=
  In CR (list_ascii_of_string s) \/ In LF (list_ascii_of_string s).

(** No line feed without a carriage return immediately before it;
    [after_cr] tells whether the previous byte was a carriage return. *)
Fixpoint lf_follows_cr (after_cr : bool) (l : list byte) : bool :=
  match l with
  | [] => true
  | b :: l' =>
      if Byte.eqb b x0a then after_cr && lf_follows_cr false l'
      else lf_follows_cr (Byte.eqb b x0d) l'
  end.

Definition no_bare_LF (l : list byte) : bool := lf_follows_cr false l.

(** A text in which every line feed follows a carriage return. *)
Definition text_ok (s : string) : Prop :=
  no_bare_LF (list_byte_of_string s) = true.

(** The value fits in eight bits. *)
Definition is_byte (a : Z) : Prop := Z.land a (Z.ones 8) = a.

(** The format of the message: what precedes the base64 segment of an
    attachment part, the part itself, and the closing delimiter. *)
Definition part_header (name : string) : list byte :=
  list_byte_of_string
    (crlf ++ crlf ++ "--" ++ boundary ++ crlf
     ++ "Content-Type: text/plain; charset=" ++ String DQUOTE "utf-8"
     ++ String DQUOTE crlf
     ++ "Content-Transfer-Encoding: base64" ++ crlf
     ++ "Content-Disposition: attachment; filename=" ++ name ++ crlf
     ++ "Content-ID: <" ++ name ++ ">" ++ crlf ++ crlf).

Definition attachment_part (a : attachment) : list byte :=
  (part_header (name a) ++ base64.Encode (data a))%list.

Definition closing_delimiter : list byte :=
  list_byte_of_string (crlf ++ crlf ++ "--" ++ boundary ++ "--").

(** A sequence of calls of [Attach], one per file, in the order of the
    list. *)
Definition attach_all (e : Email) (files : list (string * list byte))
  : Email :=
  fold_left (fun e f => Attach e (fst f) (snd f)) files e.

(** The same message before any [Attach]. *)
Definition without_attachments (e : Email) : Email :=
  NewEmail (to e) (from e) (subject e) (body e).

(** The operations a connect performs on a fresh connection, as traces:
    [greeted] after dial, greeting and EHLO; [upgraded] after the
    encryption upgrade the server may have offered. *)
Definition connect_addr (c : Client) : string :=
  JoinHostPort (Host (opts c)) (Itoa (Port (opts c))).

Definition connect_tls (c : Client) : tlsConfig :=
  {| ServerName := Host (opts c); MinVersion := VersionTLS12 |}.

Definition dialed (ctx : Context) (c : Client) (t : Trace) : Trace :=
  OpDial ctx dialTimeout "tcp" (connect_addr c) :: t.

Definition welcomed (ctx : Context) (c : Client) (t : Trace) : Trace :=
  OpNewClient (List.length t) (Host (opts c)) :: dialed ctx c t.

Definition greeted (ctx : Context) (c : Client) (t : Trace) : Trace :=
  OpHello (List.length t) (Host (opts c)) :: welcomed ctx c t.

Definition upgraded (srv : Server) (ctx : Context) (c : Client) (t : Trace)
  : Trace :=
  if advertised srv (greeted ctx c t) (List.length t) extStartTLS
  then OpStartTLS (List.length t) (connect_tls c) :: greeted ctx c t
  else greeted ctx c t.

(** Dial, greeting and EHLO succeed from history [t]. *)
Definition greeting_ok (srv : Server) (ctx : Context) (c : Client) (t : Trace)
  : Prop :=
  reply srv t (OpDial ctx dialTimeout "tcp" (connect_addr c)) = None /\
  reply srv (dialed ctx c t) (OpNewClient (List.length t) (Host (opts c)))
    = None /\
  reply srv (welcomed ctx c t) (OpHello (List.length t) (Host (opts c)))
    = None.

(** The encryption upgrade, if the server offers it, succeeds. *)
Definition upgrade_ok (srv : Server) (ctx : Context) (c : Client) (t : Trace)
  : Prop :=
  advertised srv (greeted ctx c t) (List.length t) extStartTLS = true ->
  reply srv (greeted ctx c t) (OpStartTLS (List.length t) (connect_tls c))
    = None.

Definition is_auth_op (op : NetOp) : bool :=
  match op with
  | OpAuth _ _ => true
  | _ => false
  end.

(** The clients on which no [Connect] and no [EnsureConnected] has
    succeeded: a client as [NewClient] returns it, after any number of
    calls of [Connect] and [EnsureConnected] that failed and of [Send] and
    [Close]. *)
Inductive never_connected : Client -> Prop :=
| nc_new (o : Options) : never_connected (NewClient o)
| nc_connect c ctx srv t err c' t' :
    never_connected c ->
    Connect ctx c srv t = (Some err, c', t') ->
    never_connected c'
| nc_ensure c ctx srv t err c' t' :
    never_connected c ->
    EnsureConnected ctx c srv t = (Some err, c', t') ->
    never_connected c'
| nc_send c rcpts sender msg srv t res c' t' :
    never_connected c ->
    Send c rcpts sender msg srv t = (res, c', t') ->
    never_connected c'
| nc_close c srv t res c' t' :
    never_connected c ->
    Close c srv t = (res, c', t') ->
    never_connected c'.

(** Some operation performed between the histories [t] and [t'] was
    answered with an error. *)
Definition refused_during (srv : Server) (t t' : Trace) : Prop :=
  exists post op pre e,
    t' = (post ++ op :: pre ++ t)%list /\
    reply srv (pre ++ t)%list op = Some e.

(** ** Servers and clients for the examples *)

(** Accepts every operation and advertises STARTTLS and AUTH. *)
Definition friendly_server : Server :=
  {| reply := fun _ _ => None;
     advertised := fun _ _ ext =>
       String.eqb ext extStartTLS || String.eqb ext extAuth |}.

(** Accepts every operation, advertises STARTTLS only. *)
Definition no_auth_server : Server :=
  {| reply := fun _ _ => None;
     advertised := fun _ _ ext => String.eqb ext extStartTLS |}.

(** Accepts the first connection; later dials are refused, and so are the
    probe and the termination command. *)
Definition one_shot_server : Server :=
  {| reply := fun t op =>
       match op with
       | OpDial _ _ _ _ =>
           match t with
           | [] => None
           | _ :: _ => Some (ErrLibrary "connection refused")
           end
       | OpNoop _ | OpQuit _ => Some (ErrLibrary "EOF")
       | _ => None
       end;
     advertised := fun _ _ ext =>
       String.eqb ext extStartTLS || String.eqb ext extAuth |}.


Definition example_opts : Options :=
  {| Host := "localhost"; Port := 1025;
     Login := "integration-test-user";
     Password := "integration-test-password" |}.


(** A first connect to [one_shot_server], which succeeds, and a second
    connect of the same client, which is refused. *)
Definition first_connect : option error * Client * Trace :=
  Connect Background (NewClient example_opts) one_shot_server [].

Definition second_connect : option error * Client * Trace :=
  Connect Background (snd (fst first_connect)) one_shot_server
          (snd first_connect).

(** Closing the client of [first_connect]: the termination command is
    accepted by [friendly_server] and refused by [one_shot_server]. *)
Definition close_accepted : option error * Client * Trace :=
  Close (snd (fst first_connect)) friendly_server (snd first_connect).

Definition close_refused : option error * Client * Trace :=
  Close (snd (fst first_connect)) one_shot_server (snd first_connect).

(** ** Messages for the examples *)

Definition plain_email : Email :=
  NewEmail ["to@domain.com"] "from@domain.com" "S" "B".

(** The subject holds a line feed that no carriage return precedes. *)
Definition split_subject_email : Email :=
  NewEmail ["to@domain.com"] "from@domain.com"
           (String "a" (String LF "b")) "B".

(** An attachment whose data is a lone line feed. *)
Definition lf_attachment_email : Email :=
  Attach plain_email "n.txt" [x0a].

(** The message of the case "one attachment" of [TestMail]. *)
Definition test_email : Email :=
  Attach (NewEmail ["test-1@outlook.com"; "test-2@gmail.com";
                    "test-3@mail.ru"]
                   "from@outlook.com" "test subject" "test body")
         "attachment_1.txt" (list_byte_of_string "attachment_1.txt").

(* ================================================================== *)
(** * Part II: theorems *)
(* ================================================================== *)

(** ** Address validation *)

Lemma IndexByte_In (s : string) (c : ascii) :
  IndexByte s c = true <-> In c (list_ascii_of_string s).
Proof.
  induction s as [|d s IH]; simpl.
  - split; [discriminate | tauto].
  - destruct (Ascii.eqb_spec d c) as [->|Hne].
    + split; auto.
    + rewrite IH. split; [auto | intros [?|?]; [contradiction | assumption]].
Qed.

Lemma ContainsAny_crlf (s : string) :
  ContainsAny s crlf = true <-> has_CR_or_LF s.
Proof.
  unfold has_CR_or_LF.
  induction s as [|c s IH]; cbn [ContainsAny list_ascii_of_string In].
  - split; [discriminate | tauto].
  - destruct (IndexByte crlf c) eqn:E.
    + apply IndexByte_In in E.
      destruct E as [E|[E|[]]]; subst c; tauto.
    + assert (Hc : ~ In c (list_ascii_of_string crlf)).
      { intros Hin. apply IndexByte_In in Hin. congruence. }
      rewrite IH. split.
      * tauto.
      * intros [[->|H]|[->|H]]; try tauto;
          exfalso; apply Hc; simpl; tauto.
Qed.

Lemma validateLine_bad (line : string) :
  has_CR_or_LF line -> validateLine line = Some ErrFoundCRLF.
Proof.
  intros H. unfold validateLine.
  apply ContainsAny_crlf in H. now rewrite H.
Qed.

Lemma validateLine_good (line : string) :
  ~ has_CR_or_LF line -> validateLine line = None.
Proof.
  intros H. unfold validateLine.
  destruct (ContainsAny line crlf) eqn:E; [|reflexivity].
  apply ContainsAny_crlf in E. contradiction.
Qed.

Lemma validateRecipients_bad (rcpts : list string) :
  (exists r, In r rcpts /\ has_CR_or_LF r) ->
  validateRecipients rcpts = Some (Errorf "failed to validateLine" ErrFoundCRLF).
Proof.
  induction rcpts as [|r rcpts IH]; intros (x & Hin & Hx).
  - destruct Hin.
  - simpl. unfold validateLine.
    destruct (ContainsAny r crlf) eqn:E; [reflexivity|].
    apply IH. exists x. split; [|assumption].
    destruct Hin as [->|Hin]; [|assumption].
    apply ContainsAny_crlf in Hx. congruence.
Qed.

Lemma validateRecipients_good (rcpts : list string) :
  (forall r, In r rcpts -> ~ has_CR_or_LF r) ->
  validateRecipients rcpts = None.
Proof.
  induction rcpts as [|r rcpts IH]; intros H; [reflexivity|].
  simpl. rewrite validateLine_good by (apply H; now left).
  apply IH. intros x Hx. apply H. now right.
Qed.

(** An address with a CR or an LF stops [Send] before it looks at the
    handle: the client and the trace come back as they were. *)
Lemma Send_invalid_address srv t c rcpts sender msg :
  has_CR_or_LF sender \/ (exists r, In r rcpts /\ has_CR_or_LF r) ->
  Send c rcpts sender msg srv t
  = (Some (Errorf "failed to validateLine" ErrFoundCRLF), c, t).
Proof.
  intros H. unfold Send.
  destruct (validateLine sender) as [err|] eqn:Ef.
  - unfold validateLine in Ef.
    destruct (ContainsAny sender crlf); [|discriminate].
    now inversion Ef.
  - destruct H as [H|H].
    + rewrite validateLine_bad in Ef by assumption. discriminate.
    + now rewrite validateRecipients_bad by assumption.
Qed.

(** C3. If the sender or any recipient contains a carriage return or a line
    feed, [Send] returns [ErrFoundCRLF] (wrapped by "failed to
    validateLine") and performs no network I/O: the trace is the one it was
    called with, so no envelope-from, envelope-to or data command was
    issued, whatever the handle and the server. *)
Theorem Send_CRLF_no_io :
  forall (srv : Server) (t : Trace) (c : Client) (rcpts : list string)
         (sender : string) (msg : list byte),
    has_CR_or_LF sender \/ (exists r, In r rcpts /\ has_CR_or_LF r) ->
    exists err,
      Send c rcpts sender msg srv t = (Some err, c, t) /\
      err = Errorf "failed to validateLine" ErrFoundCRLF /\
      Is err ErrFoundCRLF = true.
Proof.
  intros srv t c rcpts sender msg H.
  eexists. split; [apply Send_invalid_address; exact H|].
  split; reflexivity.
Qed.

Lemma Send_CRLF_no_io_witness :
  exists err,
    Send (set_client (NewClient example_opts) 0) ["to@domain.com"]
         (String LF "from@domain.com") [] friendly_server []
    = (Some err, set_client (NewClient example_opts) 0, []) /\
    err = Errorf "failed to validateLine" ErrFoundCRLF /\
    Is err ErrFoundCRLF = true.
Proof.
  apply (Send_CRLF_no_io friendly_server [] _ ["to@domain.com"]
           (String LF "from@domain.com") []).
  left. right. simpl. left. reflexivity.
Defined.

(** [Send] hands the client back as it received it. *)
Lemma Send_keeps_client srv t c rcpts sender msg :
  snd (fst (Send c rcpts sender msg srv t)) = c.
Proof.
  unfold Send.
  destruct (validateLine sender); [reflexivity|].
  destruct (validateRecipients rcpts); [reflexivity|].
  destruct (client c) as [h|]; [|reflexivity].
  cbv beta iota zeta delta [bind ret io smtp_Mail smtp_Data w_Write w_Close].
  destruct (reply srv t (OpMail h sender)); [reflexivity|].
  destruct (rcptRecipients h rcpts srv (OpMail h sender :: t)) as [[e|] t1];
    [reflexivity|].
  destruct (reply srv t1 (OpData h)); [reflexivity|].
  destruct (reply srv (OpData h :: t1) (OpWrite h msg)); [reflexivity|].
  destruct (reply srv (OpWrite h msg :: OpData h :: t1) (OpCloseData h));
    reflexivity.
Qed.

Lemma no_CR_or_LF_dec (s : string) :
  ContainsAny s crlf = false -> ~ has_CR_or_LF s.
Proof.
  intros E H. apply ContainsAny_crlf in H. congruence.
Qed.

(** C10. Validation comes before the connectivity check: on a client
    without a handle, an address with a CR or an LF makes [Send] return the
    wrapped [ErrFoundCRLF], which is not [ErrClientNotInitialized] and does
    not wrap it. *)
Theorem Send_validates_before_handle_check :
  forall (srv : Server) (t : Trace) (c : Client) (rcpts : list string)
         (sender : string) (msg : list byte),
    client c = None ->
    has_CR_or_LF sender \/ (exists r, In r rcpts /\ has_CR_or_LF r) ->
    exists err,
      fst (fst (Send c rcpts sender msg srv t)) = Some err /\
      Is err ErrFoundCRLF = true /\
      Is err ErrClientNotInitialized = false /\
      err <> ErrClientNotInitialized.
Proof.
  intros srv t c rcpts sender msg _ H.
  rewrite Send_invalid_address by exact H.
  eexists. split; [reflexivity|].
  repeat split; try reflexivity. discriminate.
Qed.

Lemma Send_validates_before_handle_check_witness :
  exists err,
    fst (fst (Send (NewClient example_opts)
                   ["to@domain.com"; String CR "x@domain.com"]
                   "from@domain.com" [] friendly_server [])) = Some err /\
    Is err ErrFoundCRLF = true /\
    Is err ErrClientNotInitialized = false /\
    err <> ErrClientNotInitialized.
Proof.
  apply (Send_validates_before_handle_check friendly_server []
           (NewClient example_opts)
           ["to@domain.com"; String CR "x@domain.com"] "from@domain.com" []).
  - reflexivity.
  - right. exists (String CR "x@domain.com").
    split; [right; left; reflexivity | left; left; reflexivity].
Defined.

(** ** The connection life cycle *)

Ltac run_client :=
  cbv beta iota zeta delta [Connect EnsureConnected Close bind DialContext
    smtp_NewClient smtp_Hello smtp_Extension smtp_StartTLS smtp_Auth
    smtp_Noop smtp_Quit io ret].

(** Case analysis on every answer of the server the goal depends on. *)
Ltac split_replies :=
  repeat (cbv beta iota delta [negb];
          match goal with
          | |- context [match reply ?s ?t ?op with _ => _ end] =>
              destruct (reply s t op) eqn:?
          | |- context [if advertised ?s ?t ?h ?x then _ else _] =>
              destruct (advertised s t h x) eqn:?
          | |- context [match auth ?c with _ => _ end] =>
              destruct (auth c) eqn:?
          | |- context [match client ?c with _ => _ end] =>
              destruct (client c) eqn:?
          end);
  cbv beta iota delta [negb].

(** Once greeting and upgrade went through, what is left of [Connect] is
    the authentication branch, run from the history [upgraded]. *)
Lemma Connect_after_upgrade srv ctx c t :
  greeting_ok srv ctx c t -> upgrade_ok srv ctx c t ->
  Connect ctx c srv t =
  let h := List.length t in
  let u := upgraded srv ctx c t in
  match auth c with
  | Some a =>
      if advertised srv u h extAuth then
        match reply srv u (OpAuth h a) with
        | Some err =>
            (Some (Errorf "failed to client.Auth" err), c, OpAuth h a :: u)
        | None => (None, set_client c h, OpAuth h a :: u)
        end
      else (Some ErrUnsupportedAuthExt, c, u)
  | None => (None, set_client c h, u)
  end.
Proof.
  intros (Hd & Hn & Hh) Hu. unfold upgrade_ok in Hu.
  unfold upgraded, greeted, welcomed, dialed, connect_tls, connect_addr in *.
  run_client.
  rewrite Hd; cbv beta iota. rewrite Hn; cbv beta iota.
  rewrite Hh; cbv beta iota.
  destruct (advertised srv _ _ extStartTLS) eqn:Etls.
  - rewrite (Hu eq_refl); cbv beta iota. destruct (auth c); [|reflexivity].
    destruct (advertised srv _ _ extAuth); [|reflexivity].
    cbv beta iota delta [negb].
    destruct (reply srv _ (OpAuth _ _)); reflexivity.
  - destruct (auth c); [|reflexivity].
    destruct (advertised srv _ _ extAuth); [|reflexivity].
    cbv beta iota delta [negb].
    destruct (reply srv _ (OpAuth _ _)); reflexivity.
Qed.

(** A failed [Connect] hands the client back as it received it. *)
Lemma Connect_failure_keeps_client srv ctx c t err c' t' :
  Connect ctx c srv t = (Some err, c', t') -> c' = c.
Proof.
  run_client. split_replies; intros H; try discriminate H;
    injection H as E1 E2 E3; now subst c'.
Qed.

Lemma EnsureConnected_failure_keeps_client srv ctx c t err c' t' :
  EnsureConnected ctx c srv t = (Some err, c', t') -> c' = c.
Proof.
  unfold EnsureConnected.
  destruct (client c) as [h|];
    [|apply Connect_failure_keeps_client].
  cbv beta iota zeta delta [bind smtp_Noop io ret].
  destruct (reply srv t (OpNoop h)).
  - apply Connect_failure_keeps_client.
  - intros H. discriminate H.
Qed.

Lemma Close_keeps_client srv c t : snd (fst (Close c srv t)) = c.
Proof.
  run_client. destruct (client c); reflexivity.
Qed.

Lemma never_connected_no_handle (c : Client) :
  never_connected c -> client c = None.
Proof.
  induction 1 as [o
                 |c ctx srv t err c' t' _ IH H
                 |c ctx srv t err c' t' _ IH H
                 |c rcpts sender msg srv t res c' t' _ IH H
                 |c srv t res c' t' _ IH H].
  - reflexivity.
  - apply Connect_failure_keeps_client in H. now subst c'.
  - apply EnsureConnected_failure_keeps_client in H. now subst c'.
  - pose proof (Send_keeps_client srv t c rcpts sender msg) as E.
    rewrite H in E. cbn [fst snd] in E. now subst c'.
  - pose proof (Close_keeps_client srv c t) as E.
    rewrite H in E. cbn [fst snd] in E. now subst c'.
Qed.

(** C5. A client on which no [Connect] and no [EnsureConnected] has
    succeeded stores no handle; and on every client that stores no handle,
    [Send] with addresses free of CR and LF returns
    [ErrClientNotInitialized], makes no network call (the trace is
    unchanged) and does not connect (the client is unchanged, its handle
    still absent). *)
Theorem Send_not_connected :
  forall (srv : Server) (t : Trace) (c : Client) (rcpts : list string)
         (sender : string) (msg : list byte),
    never_connected c \/ client c = None ->
    ~ has_CR_or_LF sender ->
    (forall r, In r rcpts -> ~ has_CR_or_LF r) ->
    client c = None /\
    Send c rcpts sender msg srv t = (Some ErrClientNotInitialized, c, t) /\
    client (snd (fst (Send c rcpts sender msg srv t))) = None.
Proof.
  intros srv t c rcpts sender msg Hc Hs Hr.
  assert (Hn : client c = None).
  { destruct Hc as [Hc|Hc]; [now apply never_connected_no_handle | exact Hc]. }
  assert (E : Send c rcpts sender msg srv t
              = (Some ErrClientNotInitialized, c, t)).
  { unfold Send.
    rewrite validateLine_good by assumption.
    rewrite validateRecipients_good by assumption.
    now rewrite Hn. }
  rewrite E. repeat split; assumption.
Qed.

Lemma Send_not_connected_witness :
  client (NewClient example_opts) = None /\
  Send (NewClient example_opts) ["to@domain.com"] "from@domain.com" []
       friendly_server []
  = (Some ErrClientNotInitialized, NewClient example_opts, []) /\
  client (snd (fst (Send (NewClient example_opts) ["to@domain.com"]
                         "from@domain.com" [] friendly_server []))) = None.
Proof.
  apply (Send_not_connected friendly_server [] (NewClient example_opts)
           ["to@domain.com"] "from@domain.com" []).
  - left. constructor.
  - apply no_CR_or_LF_dec. reflexivity.
  - intros r [<-|[]]. apply no_CR_or_LF_dec. reflexivity.
Defined.

(** A connect to [friendly_server] from an empty history: the five
    operations, most recent first, and the handle stored. *)
Example Connect_friendly :
  Connect Background (NewClient example_opts) friendly_server []
  = (None,
     set_client (NewClient example_opts) 0,
     [ OpAuth 0 (PlainAuth "" "integration-test-user"
                           "integration-test-password" "localhost");
       OpStartTLS 0 {| ServerName := "localhost";
                       MinVersion := VersionTLS12 |};
       OpHello 0 "localhost";
       OpNewClient 0 "localhost";
       OpDial Background dialTimeout "tcp" "localhost:1025" ]).
Proof. reflexivity. Qed.

(** Sending over that handle: MAIL, RCPT for each recipient in order,
    DATA, the payload, the end of data. *)
Example Send_friendly :
  Send (set_client (NewClient example_opts) 0) ["a@x"; "b@x"] "f@x" [x41]
       friendly_server []
  = (None,
     set_client (NewClient example_opts) 0,
     [ OpCloseData 0; OpWrite 0 [x41]; OpData 0;
       OpRcpt 0 "b@x"; OpRcpt 0 "a@x"; OpMail 0 "f@x" ]).
Proof. reflexivity. Qed.

(** [upgraded] adds at most dial, greeting, EHLO and STARTTLS to the
    history: no authentication exchange among them. *)
Lemma upgraded_no_auth srv ctx c t :
  exists new,
    upgraded srv ctx c t = (new ++ t)%list /\
    forallb (fun op => negb (is_auth_op op)) new = true.
Proof.
  unfold upgraded, greeted, welcomed, dialed.
  destruct (advertised srv _ _ extStartTLS).
  - eexists [_; _; _; _]. split; reflexivity.
  - eexists [_; _; _]. split; reflexivity.
Qed.

Lemma new_ops_split (l post pre t : Trace) (op : NetOp) :
  (l ++ t = post ++ op :: pre ++ t)%list -> l = (post ++ op :: pre)%list.
Proof.
  intros H. apply (app_inv_tail t).
  rewrite H, <- app_assoc. reflexivity.
Qed.

(** Walk through the operations of [H : [a; ...] = post ++ op :: pre]: each
    candidate for [op] was answered without error. *)
Ltac no_refusal H :=
  repeat match type of H with
         | _ = (?post ++ _ :: _)%list =>
             destruct post as [|? post]; cbn [app] in H;
             [ injection H as; subst; cbn [app] in *; congruence
             | try discriminate H; injection H as ? H; subst ]
         end.

(** C1, as the code has it. [Connect] returns an error whenever one of its
    steps (dial, greeting, EHLO, encryption upgrade, authentication) is
    refused; a failed [Connect] leaves the client as it was, so the stored
    handle is what it was before the call (absent if it was absent, the
    earlier handle if there was one); a successful [Connect] stores the
    handle of the connection it has just dialed, in place of any other. *)
Theorem Connect_handle :
  forall (srv : Server) (ctx : Context) (c : Client) (t : Trace)
         (res : option error) (c' : Client) (t' : Trace),
    Connect ctx c srv t = (res, c', t') ->
    (refused_during srv t t' -> res <> None) /\
    (res <> None -> c' = c /\ client c' = client c) /\
    (res = None ->
     c' = set_client c (List.length t) /\
     client c' = Some (List.length t) /\
     exists rest,
       t' = (rest ++ OpDial ctx dialTimeout "tcp" (connect_addr c) :: t)%list).
Proof.
  intros srv ctx c t res c' t'.
  run_client. split_replies; intros H; injection H as <- <- <-.
  all: split; [|split].
  all: try (intros _; discriminate).
  all: try (intros E; exfalso; apply E; reflexivity).
  all: try (intros _; split; reflexivity).
  all: try (intros E; discriminate E).
  all: try (intros _; split; [reflexivity|split; [reflexivity|]]).
  all: try (eexists [_; _; _; _]; reflexivity).
  all: try (eexists [_; _; _]; reflexivity).
  all: try (eexists [_; _]; reflexivity).
  all: intros (post & op & pre & e & Ht & He).
  all: match type of Ht with
       | ?a :: ?b :: ?c :: ?d :: ?e :: ?t = _ =>
           apply (new_ops_split [a; b; c; d; e]) in Ht
       | ?a :: ?b :: ?c :: ?d :: ?t = _ =>
           apply (new_ops_split [a; b; c; d]) in Ht
       | ?a :: ?b :: ?c :: ?t = _ =>
           apply (new_ops_split [a; b; c]) in Ht
       end.
  all: no_refusal Ht.
  all: destruct post; discriminate Ht.
Qed.

Lemma Connect_handle_witness :
  (refused_during one_shot_server (snd first_connect) (snd second_connect) ->
   fst (fst second_connect) <> None) /\
  (fst (fst second_connect) <> None ->
   snd (fst second_connect) = snd (fst first_connect) /\
   client (snd (fst second_connect)) = client (snd (fst first_connect))) /\
  (fst (fst second_connect) = None ->
   snd (fst second_connect)
   = set_client (snd (fst first_connect)) (List.length (snd first_connect)) /\
   client (snd (fst second_connect))
   = Some (List.length (snd first_connect)) /\
   exists rest,
     snd second_connect
     = (rest ++ OpDial Background dialTimeout "tcp"
                       (connect_addr (snd (fst first_connect)))
             :: snd first_connect)%list).
Proof.
  apply (Connect_handle one_shot_server Background (snd (fst first_connect))
           (snd first_connect)).
  reflexivity.
Defined.

(** C1 as stated fails: after a successful connect, a connect that fails at
    the dial leaves the earlier handle stored. *)
Lemma Connect_failure_keeps_earlier_handle :
  fst (fst first_connect) = None /\
  client (snd (fst first_connect)) = Some 0%nat /\
  fst (fst second_connect)
  = Some (Errorf "failed to dialer.DialContext, address: localhost:1025"
                 (ErrLibrary "connection refused")) /\
  client (snd (fst second_connect)) = Some 0%nat /\
  client (snd (fst second_connect)) <> None.
Proof.
  repeat split; try reflexivity. discriminate.
Qed.

(** C2, as the code has it. [Close] is a no-op that succeeds when no handle
    is stored; when a handle is stored it issues the termination command
    (QUIT) on it, once, and returns what the command returned. In both
    cases the client is left as it was: the stored handle is still the same
    handle after [Close], whether the command succeeded or failed. *)
Theorem Close_keeps_handle :
  forall (srv : Server) (c : Client) (t : Trace)
         (res : option error) (c' : Client) (t' : Trace),
    Close c srv t = (res, c', t') ->
    c' = c /\
    client c' = client c /\
    (client c = None -> res = None /\ t' = t) /\
    (forall h, client c = Some h ->
               t' = OpQuit h :: t /\ res = reply srv t (OpQuit h)).
Proof.
  intros srv c t res c' t' H.
  assert (Hc : c' = c /\ match client c with
                         | Some h => t' = OpQuit h :: t /\
                                     res = reply srv t (OpQuit h)
                         | None => res = None /\ t' = t
                         end).
  { revert H. run_client.
    destruct (client c) as [h|]; cbv beta iota;
      intros H; injection H as <- <- <-; repeat split; reflexivity. }
  destruct Hc as [-> Hc].
  split; [reflexivity|]. split; [reflexivity|]. split.
  - intros E. rewrite E in Hc. exact Hc.
  - intros h Eh. rewrite Eh in Hc. exact Hc.
Qed.

Lemma Close_keeps_handle_witness :
  snd (fst close_refused) = snd (fst first_connect) /\
  client (snd (fst close_refused)) = client (snd (fst first_connect)) /\
  (client (snd (fst first_connect)) = None ->
   fst (fst close_refused) = None /\ snd close_refused = snd first_connect) /\
  (forall h, client (snd (fst first_connect)) = Some h ->
             snd close_refused = OpQuit h :: snd first_connect /\
             fst (fst close_refused)
             = reply one_shot_server (snd first_connect) (OpQuit h)).
Proof.
  apply (Close_keeps_handle one_shot_server (snd (fst first_connect))
           (snd first_connect)).
  reflexivity.
Defined.

(** C2 as stated fails: the handle is still stored after [Close], when the
    termination command succeeded and when it failed. *)
Lemma Close_handle_still_stored :
  client (snd (fst first_connect)) = Some 0%nat /\
  (fst (fst close_accepted) = None /\
   client (snd (fst close_accepted)) = Some 0%nat) /\
  (fst (fst close_refused) = Some (ErrLibrary "EOF") /\
   client (snd (fst close_refused)) = Some 0%nat) /\
  client (snd (fst close_accepted)) <> None /\
  client (snd (fst close_refused)) <> None.
Proof.
  repeat split; try reflexivity; discriminate.
Qed.

(** C4. With an authentication strategy configured, when dial, greeting,
    EHLO and the encryption upgrade (if offered) have succeeded and the
    extension table then lacks AUTH, [Connect] returns
    [ErrUnsupportedAuthExt], unwrapped, and leaves the client as it was;
    the operations it performed are those of [upgraded], none of which is
    an authentication exchange. *)
Theorem Connect_auth_not_advertised :
  forall (srv : Server) (ctx : Context) (c : Client) (t : Trace) (a : Auth),
    auth c = Some a ->
    greeting_ok srv ctx c t ->
    upgrade_ok srv ctx c t ->
    advertised srv (upgraded srv ctx c t) (List.length t) extAuth = false ->
    Connect ctx c srv t
    = (Some ErrUnsupportedAuthExt, c, upgraded srv ctx c t) /\
    exists new,
      snd (Connect ctx c srv t) = (new ++ t)%list /\
      forallb (fun op => negb (is_auth_op op)) new = true.
Proof.
  intros srv ctx c t a Ha Hg Hu Hn.
  assert (E : Connect ctx c srv t
              = (Some ErrUnsupportedAuthExt, c, upgraded srv ctx c t)).
  { rewrite Connect_after_upgrade by assumption.
    cbv zeta. now rewrite Ha, Hn. }
  split; [exact E|].
  rewrite E. apply upgraded_no_auth.
Qed.

Lemma Connect_auth_not_advertised_witness :
  Connect Background (NewClient example_opts) no_auth_server []
  = (Some ErrUnsupportedAuthExt, NewClient example_opts,
     upgraded no_auth_server Background (NewClient example_opts) []) /\
  exists new,
    snd (Connect Background (NewClient example_opts) no_auth_server [])
    = (new ++ [])%list /\
    forallb (fun op => negb (is_auth_op op)) new = true.
Proof.
  apply (Connect_auth_not_advertised no_auth_server Background
           (NewClient example_opts) []
           (PlainAuth "" "integration-test-user" "integration-test-password"
                      "localhost")).
  - reflexivity.
  - repeat split.
  - intros _. reflexivity.
  - reflexivity.
Defined.




(** ** Base64 *)

Local Open Scope Z_scope.

Lemma uint_range (b : byte) : 0 <= base64.uint b < 256.
Proof.
  unfold base64.uint. pose proof (Byte.to_N_bounded b). lia.
Qed.

Lemma is_byte_uint (b : byte) : is_byte (base64.uint b).
Proof.
  unfold is_byte. rewrite Z.land_ones by lia. apply Z.mod_small.
  change (2 ^ 8) with 256. apply uint_range.
Qed.

Lemma is_byte_0 : is_byte 0.
Proof. reflexivity. Qed.

Lemma to_byte_uint (b : byte) : base64.to_byte (base64.uint b) = b.
Proof.
  unfold base64.to_byte. change 0xFF with (Z.ones 8).
  rewrite is_byte_uint. unfold base64.uint.
  rewrite N2Z.id, Byte.of_to_N. reflexivity.
Qed.

Lemma to_byte_low8 (v w : Z) :
  Z.land v (Z.ones 8) = Z.land w (Z.ones 8) ->
  base64.to_byte v = base64.to_byte w.
Proof.
  unfold base64.to_byte. change 0xFF with (Z.ones 8). now intros ->.
Qed.

Local Abbreviation pack a b c :=
  (Z.lor (Z.lor (Z.shiftl a 16) (Z.shiftl b 8)) c).

Local Abbreviation digit val k := (Z.land (Z.shiftr val k) 0x3F).

(** Four 6-bit digits of a 24-bit value give the value back. *)
Lemma quantum_digits (val : Z) :
  Z.land val (Z.ones 24) = val ->
  base64.quantum (digit val 18) (digit val 12) (digit val 6)
                 (Z.land val 0x3F)
  = val.
Proof.
  intros H. rewrite <- H at 5. unfold base64.quantum.
  change 0x3F with (Z.ones 6).
  Z.bitblast.
Qed.

Section Groups.
Variables a b c : Z.
Hypothesis (Ha : is_byte a) (Hb : is_byte b) (Hc : is_byte c).

Lemma pack_24 : Z.land (pack a b c) (Z.ones 24) = pack a b c.
Proof.
  rewrite <- Ha, <- Hb, <- Hc. Z.bitblast.
Qed.

Lemma pack_byte0 :
  base64.to_byte (Z.shiftr (pack a b c) 16) = base64.to_byte a.
Proof.
  apply to_byte_low8. rewrite <- Ha, <- Hb, <- Hc. Z.bitblast.
Qed.

Lemma pack_byte1 :
  base64.to_byte (Z.shiftr (pack a b c) 8) = base64.to_byte b.
Proof.
  apply to_byte_low8. rewrite <- Ha, <- Hb, <- Hc. Z.bitblast.
Qed.

Lemma pack_byte2 : base64.to_byte (pack a b c) = base64.to_byte c.
Proof.
  apply to_byte_low8. rewrite <- Ha, <- Hb, <- Hc. Z.bitblast.
Qed.

Lemma pack_digits :
  base64.quantum (digit (pack a b c) 18) (digit (pack a b c) 12)
                 (digit (pack a b c) 6) (Z.land (pack a b c) 0x3F)
  = pack a b c.
Proof. apply quantum_digits, pack_24. Qed.

Lemma pack_digit3_0 : c = 0 -> Z.land (pack a b c) 0x3F = 0.
Proof.
  intros ->. change 0x3F with (Z.ones 6). Z.bitblast.
  all: rewrite !Z.testbit_neg_r by lia; reflexivity.
Qed.

Lemma pack_digit2_0 : b = 0 -> c = 0 -> digit (pack a b c) 6 = 0.
Proof.
  intros -> ->. change 0x3F with (Z.ones 6). Z.bitblast.
  all: rewrite !Z.testbit_neg_r by lia; reflexivity.
Qed.

Lemma pack_digits_2 :
  c = 0 ->
  base64.quantum (digit (pack a b c) 18) (digit (pack a b c) 12)
                 (digit (pack a b c) 6) 0
  = pack a b c.
Proof.
  intros H0.
  transitivity
    (base64.quantum (digit (pack a b c) 18) (digit (pack a b c) 12)
                    (digit (pack a b c) 6) (Z.land (pack a b c) 0x3F));
    [|apply pack_digits].
  now rewrite pack_digit3_0.
Qed.

Lemma pack_digits_1 :
  b = 0 -> c = 0 ->
  base64.quantum (digit (pack a b c) 18) (digit (pack a b c) 12) 0 0
  = pack a b c.
Proof.
  intros Hb0 Hc0.
  transitivity
    (base64.quantum (digit (pack a b c) 18) (digit (pack a b c) 12)
                    (digit (pack a b c) 6) 0);
    [|apply pack_digits_2; assumption].
  now rewrite pack_digit2_0.
Qed.
End Groups.

Lemma digit_range (x : Z) : 0 <= Z.land x 0x3F < 64.
Proof.
  change 0x3F with (Z.ones 6). rewrite Z.land_ones by lia.
  apply Z.mod_pos_bound. reflexivity.
Qed.

(** A property of the 64 digits holds if it holds of each. *)
Lemma digits_check (P : Z -> bool) :
  forallb P (map Z.of_nat (seq 0 64)) = true ->
  forall d, 0 <= d < 64 -> P d = true.
Proof.
  intros H d Hd. rewrite forallb_forall in H. apply H.
  apply in_map_iff. exists (Z.to_nat d). split; [lia|].
  apply in_seq. lia.
Qed.

Lemma decodeMap_encode_at (d : Z) :
  0 <= d < 64 -> base64.decodeMap (base64.encode_at d) = d.
Proof.
  intros Hd. apply Z.eqb_eq.
  apply (digits_check
           (fun d => base64.decodeMap (base64.encode_at d) =? d));
    [|exact Hd].
  vm_compute. reflexivity.
Qed.

Lemma encode_at_not_padding (d : Z) :
  0 <= d < 64 -> Byte.eqb (base64.encode_at d) base64.StdPadding = false.
Proof.
  intros Hd. apply negb_true_iff.
  apply (digits_check
           (fun d => negb (Byte.eqb (base64.encode_at d) base64.StdPadding)));
    [|exact Hd].
  vm_compute. reflexivity.
Qed.

Lemma encode_at_alphabet (d : Z) :
  0 <= d < 64 ->
  In (base64.encode_at d) (list_byte_of_string base64.encodeStd).
Proof.
  intros Hd.
  assert (E : existsb (Byte.eqb (base64.encode_at d))
                      (list_byte_of_string base64.encodeStd) = true).
  { apply (digits_check
             (fun d => existsb (Byte.eqb (base64.encode_at d))
                               (list_byte_of_string base64.encodeStd)));
      [|exact Hd].
    vm_compute. reflexivity. }
  apply existsb_exists in E as (x & Hx & Ex).
  apply Byte.byte_dec_bl in Ex. now subst x.
Qed.

Lemma digit_valid (d : Z) : 0 <= d < 64 -> (d =? 0xFF) = false.
Proof. intros Hd. apply Z.eqb_neq. lia. Qed.

Lemma Decode_group (d0 d1 d2 d3 : Z) (rest : list byte) :
  0 <= d0 < 64 -> 0 <= d1 < 64 -> 0 <= d2 < 64 -> 0 <= d3 < 64 ->
  base64.Decode (base64.encode_at d0 :: base64.encode_at d1
                 :: base64.encode_at d2 :: base64.encode_at d3 :: rest)
  = match base64.Decode rest with
    | Some out =>
        let val := base64.quantum d0 d1 d2 d3 in
        Some (base64.to_byte (Z.shiftr val 16)
              :: base64.to_byte (Z.shiftr val 8)
              :: base64.to_byte val :: out)
    | None => None
    end.
Proof.
  intros H0 H1 H2 H3. cbn [base64.Decode].
  rewrite !decodeMap_encode_at by assumption.
  rewrite !digit_valid by assumption.
  rewrite !encode_at_not_padding by assumption.
  reflexivity.
Qed.

Lemma Decode_last2 (d0 d1 d2 : Z) :
  0 <= d0 < 64 -> 0 <= d1 < 64 -> 0 <= d2 < 64 ->
  base64.Decode [base64.encode_at d0; base64.encode_at d1;
                 base64.encode_at d2; base64.StdPadding]
  = let val := base64.quantum d0 d1 d2 0 in
    Some [base64.to_byte (Z.shiftr val 16); base64.to_byte (Z.shiftr val 8)].
Proof.
  intros H0 H1 H2. cbn [base64.Decode].
  rewrite !decodeMap_encode_at by assumption.
  rewrite !digit_valid by assumption.
  rewrite !encode_at_not_padding by assumption.
  reflexivity.
Qed.

Lemma Decode_last1 (d0 d1 : Z) :
  0 <= d0 < 64 -> 0 <= d1 < 64 ->
  base64.Decode [base64.encode_at d0; base64.encode_at d1;
                 base64.StdPadding; base64.StdPadding]
  = Some [base64.to_byte (Z.shiftr (base64.quantum d0 d1 0 0) 16)].
Proof.
  intros H0 H1. cbn [base64.Decode].
  rewrite !decodeMap_encode_at by assumption.
  rewrite !digit_valid by assumption.
  reflexivity.
Qed.

(** Induction on a list three elements at a time, as [Encode] recurses. *)
Lemma list_ind3 {A} (P : list A -> Prop) :
  P [] -> (forall a, P [a]) -> (forall a b, P [a; b]) ->
  (forall a b c l, P l -> P (a :: b :: c :: l)) ->
  forall l, P l.
Proof.
  intros H0 H1 H2 H3. fix IH 1.
  intros [|a [|b [|c l]]];
    [exact H0 | apply H1 | apply H2 | apply H3; apply IH].
Qed.

(** Decoding an encoding gives the bytes back. *)
Lemma Decode_Encode (src : list byte) :
  base64.Decode (base64.Encode src) = Some src.
Proof.
  induction src as [|s0|s0 s1|s0 s1 s2 rest IH] using list_ind3.
  - reflexivity.
  - cbn [base64.Encode]. cbv zeta.
    rewrite Decode_last1 by apply digit_range.
    replace (Z.shiftl (base64.uint s0) 16) with (pack (base64.uint s0) 0 0)
      by (now rewrite Z.shiftl_0_l, !Z.lor_0_r).
    pose proof (is_byte_uint s0) as B0.
    rewrite pack_digits_1 by (assumption || apply is_byte_0 || reflexivity).
    rewrite pack_byte0 by (assumption || apply is_byte_0).
    now rewrite to_byte_uint.
  - cbn [base64.Encode]. cbv zeta.
    rewrite Decode_last2 by apply digit_range.
    cbv zeta.
    replace (Z.lor (Z.shiftl (base64.uint s0) 16)
                   (Z.shiftl (base64.uint s1) 8))
      with (pack (base64.uint s0) (base64.uint s1) 0) by apply Z.lor_0_r.
    pose proof (is_byte_uint s0) as B0. pose proof (is_byte_uint s1) as B1.
    rewrite pack_digits_2 by (assumption || apply is_byte_0 || reflexivity).
    rewrite pack_byte0, pack_byte1 by (assumption || apply is_byte_0).
    now rewrite !to_byte_uint.
  - cbn [base64.Encode]. cbv zeta.
    rewrite Decode_group by apply digit_range.
    rewrite IH. cbv zeta.
    pose proof (is_byte_uint s0) as B0. pose proof (is_byte_uint s1) as B1.
    pose proof (is_byte_uint s2) as B2.
    rewrite pack_digits by assumption.
    rewrite pack_byte0, pack_byte1, pack_byte2 by assumption.
    now rewrite !to_byte_uint.
Qed.

(** The encoding is written in the standard alphabet and the padding
    character. *)
Lemma Encode_alphabet (src : list byte) :
  Forall (fun b => In b (list_byte_of_string base64.encodeStd)
                   \/ b = base64.StdPadding)
         (base64.Encode src).
Proof.
  induction src as [|s0|s0 s1|s0 s1 s2 rest IH] using list_ind3;
    cbn [base64.Encode]; cbv zeta;
    repeat match goal with
           | |- Forall _ [] => constructor
           | |- Forall _ (base64.Encode _) => exact IH
           | |- Forall _ (base64.StdPadding :: _) =>
               constructor; [right; reflexivity|]
           | |- Forall _ (base64.encode_at _ :: _) =>
               constructor; [left; apply encode_at_alphabet, digit_range|]
           end.
Qed.

(** [Encode] fills the buffer that [EncodedLen] sizes. *)
Lemma Encode_length (src : list byte) :
  Z.of_nat (List.length (base64.Encode src))
  = base64.EncodedLen (Z.of_nat (List.length src)).
Proof.
  unfold base64.EncodedLen.
  induction src as [|s0|s0 s1|s0 s1 s2 rest IH] using list_ind3;
    try reflexivity.
  cbn [base64.Encode]. cbv zeta. cbn [List.length].
  rewrite !Nat2Z.inj_succ, IH.
  replace (Z.succ (Z.succ (Z.succ (Z.of_nat (List.length rest)))) + 2)
    with (Z.of_nat (List.length rest) + 2 + 1 * 3) by lia.
  rewrite Z.div_add by lia. lia.
Qed.

Local Close Scope Z_scope.

(** ** The message builder *)

Lemma list_byte_of_string_app (a b : string) :
  list_byte_of_string (a ++ b)
  = (list_byte_of_string a ++ list_byte_of_string b)%list.
Proof.
  unfold list_byte_of_string.
  induction a as [|c a IH]; [reflexivity|].
  cbn [append list_ascii_of_string map app]. now rewrite IH.
Qed.

Lemma writeAttachment_app (buf : Buffer) (a : attachment) :
  writeAttachment buf a = (buf ++ attachment_part a)%list.
Proof.
  unfold writeAttachment, attachment_part, part_header, WriteString, Write.
  rewrite !list_byte_of_string_app, <- !app_assoc. reflexivity.
Qed.

Lemma fold_writeAttachment (l : list attachment) (buf : Buffer) :
  fold_left writeAttachment l buf
  = (buf ++ List.concat (map attachment_part l))%list.
Proof.
  revert buf.
  induction l as [|a l IH]; intros buf; cbn [fold_left map List.concat].
  - now rewrite app_nil_r.
  - now rewrite IH, writeAttachment_app, <- app_assoc.
Qed.

(** The output is the output for the message without attachments, with
    the attachment parts put before the closing delimiter. *)
Lemma Build_parts (e : Email) :
  exists head,
    Build (without_attachments e) = (head ++ closing_delimiter)%list /\
    Build e = (head ++ List.concat (map attachment_part (attachments e))
                    ++ closing_delimiter)%list.
Proof.
  unfold Build, Bytes, without_attachments.
  cbn [NewEmail to from subject body attachments fold_left].
  match goal with
  | |- context [fold_left writeAttachment _ ?buf] => set (head := buf)
  end.
  exists head. unfold WriteString, closing_delimiter.
  rewrite fold_writeAttachment, <- app_assoc. split; reflexivity.
Qed.

Lemma attach_all_attachments (files : list (string * list byte)) (e : Email) :
  attachments (attach_all e files)
  = (attachments e
     ++ map (fun f => {| name := fst f; data := snd f |}) files)%list /\
  without_attachments (attach_all e files) = without_attachments e.
Proof.
  unfold attach_all. revert e.
  induction files as [|f files IH]; intros e; cbn [fold_left map].
  - now rewrite app_nil_r.
  - destruct (IH (Attach e (fst f) (snd f))) as [E1 E2]. rewrite E1, E2.
    cbn [Attach attachments]. now rewrite <- app_assoc.
Qed.

(** C6. For recipients ["to@domain.com"], sender "from@domain.com",
    subject "S", body "B" and no attachment, [Build] returns exactly the
    five header lines From, To, Subject, MIME-Version and Content-Type,
    each ended by CRLF, then a blank line, the boundary and one text/plain
    part holding "B", then the closing boundary "--mail-boundary--" with
    nothing after it and no attachment part. *)
Theorem Build_plain_email :
  Build (NewEmail ["to@domain.com"] "from@domain.com" "S" "B")
  = list_byte_of_string
      ("From: from@domain.com" ++ crlf
       ++ "To: to@domain.com" ++ crlf
       ++ "Subject: S" ++ crlf
       ++ "MIME-Version: 1.0" ++ crlf
       ++ "Content-Type: multipart/mixed; boundary=mail-boundary" ++ crlf
       ++ crlf
       ++ "--mail-boundary" ++ crlf
       ++ "Content-Type: text/plain; charset=" ++ String DQUOTE "utf-8"
       ++ String DQUOTE crlf
       ++ crlf
       ++ "B" ++ crlf
       ++ crlf
       ++ "--mail-boundary--").
Proof. vm_compute. reflexivity. Qed.

(** The case "one attachment" of [TestMail] in [email_test.go]. *)
Example Build_test_email :
  Build test_email
  = list_byte_of_string
      ("From: from@outlook.com" ++ crlf
       ++ "To: test-1@outlook.com;test-2@gmail.com;test-3@mail.ru" ++ crlf
       ++ "Subject: test subject" ++ crlf
       ++ "MIME-Version: 1.0" ++ crlf
       ++ "Content-Type: multipart/mixed; boundary=mail-boundary" ++ crlf
       ++ crlf
       ++ "--mail-boundary" ++ crlf
       ++ "Content-Type: text/plain; charset=" ++ String DQUOTE "utf-8"
       ++ String DQUOTE crlf
       ++ crlf
       ++ "test body" ++ crlf
       ++ crlf
       ++ "--mail-boundary" ++ crlf
       ++ "Content-Type: text/plain; charset=" ++ String DQUOTE "utf-8"
       ++ String DQUOTE crlf
       ++ "Content-Transfer-Encoding: base64" ++ crlf
       ++ "Content-Disposition: attachment; filename=attachment_1.txt" ++ crlf
       ++ "Content-ID: <attachment_1.txt>" ++ crlf
       ++ crlf
       ++ "YXR0YWNobWVudF8xLnR4dA==" ++ crlf
       ++ crlf
       ++ "--mail-boundary--").
Proof. vm_compute. reflexivity. Qed.

(** C7. After any sequence of [Attach] calls the attachments are the ones
    given, in the order of the calls, after those the message had; and for
    a message with N attachments the output of [Build] is the output for
    the same message without attachments (header block and body part) with
    exactly N attachment parts put between the body part and the closing
    delimiter, one per attachment and in the order of the attachments. Each
    part is its header lines followed by the base64 encoding of the data:
    written in the standard alphabet with padding, of the length
    [EncodedLen] gives, and decoding to exactly the attachment's bytes. *)
Theorem Build_attachment_parts :
  forall (e : Email) (files : list (string * list byte)),
    attachments (attach_all e files)
    = (attachments e
       ++ map (fun f => {| name := fst f; data := snd f |}) files)%list /\
    (exists head,
        Build (without_attachments (attach_all e files))
        = (head ++ closing_delimiter)%list /\
        Build (attach_all e files)
        = (head
           ++ List.concat (map attachment_part
                               (attachments (attach_all e files)))
           ++ closing_delimiter)%list) /\
    List.length (map attachment_part (attachments (attach_all e files)))
    = List.length (attachments (attach_all e files)) /\
    Forall (fun a =>
              attachment_part a
              = (part_header (name a) ++ base64.Encode (data a))%list /\
              base64.Decode (base64.Encode (data a)) = Some (data a) /\
              Forall (fun b => In b (list_byte_of_string base64.encodeStd)
                               \/ b = base64.StdPadding)
                     (base64.Encode (data a)) /\
              Z.of_nat (List.length (base64.Encode (data a)))
              = base64.EncodedLen (Z.of_nat (List.length (data a))))
           (attachments (attach_all e files)).
Proof.
  intros e files.
  split; [apply attach_all_attachments|].
  split; [apply Build_parts|].
  split; [apply length_map|].
  apply Forall_forall. intros a _.
  split; [reflexivity|].
  split; [apply Decode_Encode|].
  split; [apply Encode_alphabet | apply Encode_length].
Qed.

(** ** Line endings *)

Lemma lf_follows_cr_weaken (p : bool) (l : list byte) :
  lf_follows_cr false l = true -> lf_follows_cr p l = true.
Proof.
  destruct l as [|b l]; [reflexivity|]. cbn [lf_follows_cr].
  destruct (Byte.eqb b x0a); [discriminate | trivial].
Qed.

Lemma lf_follows_cr_app (p : bool) (l1 l2 : list byte) :
  lf_follows_cr p l1 = true -> no_bare_LF l2 = true ->
  lf_follows_cr p (l1 ++ l2) = true.
Proof.
  unfold no_bare_LF. revert p.
  induction l1 as [|b l1 IH]; intros p H1 H2; cbn [app].
  - now apply lf_follows_cr_weaken.
  - cbn [lf_follows_cr] in *. destruct (Byte.eqb b x0a).
    + apply andb_true_iff in H1 as [-> H1]. now rewrite IH.
    + now apply IH.
Qed.

Lemma no_bare_LF_app (l1 l2 : list byte) :
  no_bare_LF l1 = true -> no_bare_LF l2 = true ->
  no_bare_LF (l1 ++ l2) = true.
Proof. apply lf_follows_cr_app. Qed.

Lemma no_bare_LF_concat (ls : list (list byte)) :
  Forall (fun l => no_bare_LF l = true) ls ->
  no_bare_LF (List.concat ls) = true.
Proof.
  induction 1 as [|l ls Hl _ IH]; [reflexivity|].
  cbn [List.concat]. now apply no_bare_LF_app.
Qed.

Lemma no_LF_no_bare_LF (l : list byte) :
  Forall (fun b => b <> x0a) l -> no_bare_LF l = true.
Proof.
  unfold no_bare_LF. intros H. generalize false as p.
  induction H as [|b l Hb _ IH]; intros p; [reflexivity|].
  cbn [lf_follows_cr].
  destruct (Byte.eqb b x0a) eqn:E; [|apply IH].
  apply Byte.byte_dec_bl in E. contradiction.
Qed.

Lemma text_ok_app (a b : string) :
  text_ok a -> text_ok b -> text_ok (a ++ b).
Proof.
  unfold text_ok. intros Ha Hb. rewrite list_byte_of_string_app.
  now apply no_bare_LF_app.
Qed.

Lemma text_ok_Join (elems : list string) (sep : string) :
  text_ok sep -> Forall text_ok elems -> text_ok (Join elems sep).
Proof.
  intros Hsep H. unfold Join.
  induction H as [|x l Hx Hl IH]; [reflexivity|].
  cbn [String.concat]. destruct l as [|y l]; [exact Hx|].
  apply text_ok_app; [exact Hx|]. apply text_ok_app; [exact Hsep | exact IH].
Qed.

(** No character of the alphabet is a line feed, nor is the padding. *)
Lemma Encode_no_LF (src : list byte) :
  Forall (fun b => b <> x0a) (base64.Encode src).
Proof.
  eapply Forall_impl; [|apply Encode_alphabet].
  intros b [H| ->]; [|discriminate].
  intros ->.
  assert (E : existsb (Byte.eqb x0a) (list_byte_of_string base64.encodeStd)
              = true).
  { apply existsb_exists. exists x0a. split; [exact H | reflexivity]. }
  vm_compute in E. discriminate E.
Qed.

Lemma no_bare_LF_attachment_part (a : attachment) :
  text_ok (name a) -> no_bare_LF (attachment_part a) = true.
Proof.
  intros Hn. unfold attachment_part. apply no_bare_LF_app.
  - unfold part_header. change (text_ok
      (crlf ++ crlf ++ "--" ++ boundary ++ crlf
       ++ "Content-Type: text/plain; charset=" ++ String DQUOTE "utf-8"
       ++ String DQUOTE crlf
       ++ "Content-Transfer-Encoding: base64" ++ crlf
       ++ "Content-Disposition: attachment; filename=" ++ name a ++ crlf
       ++ "Content-ID: <" ++ name a ++ ">" ++ crlf ++ crlf)).
    repeat (first [exact Hn | reflexivity | apply text_ok_app]).
  - apply no_LF_no_bare_LF, Encode_no_LF.
Qed.

(** C8, as the code has it. When the sender, every recipient, the subject,
    the body text and every attachment file name are free of bare line
    feeds, no line feed in the output of [Build] comes without a carriage
    return immediately before it; the attachment data may be any bytes. *)
Theorem Build_no_bare_LF :
  forall (e : Email),
    text_ok (from e) ->
    Forall text_ok (to e) ->
    text_ok (subject e) ->
    text_ok (body e) ->
    Forall (fun a => text_ok (name a)) (attachments e) ->
    no_bare_LF (Build e) = true.
Proof.
  intros e Hfrom Hto Hsubject Hbody Hnames.
  unfold Build, Bytes. rewrite fold_writeAttachment. unfold WriteString.
  repeat apply no_bare_LF_app;
    try match goal with
        | |- no_bare_LF (list_byte_of_string ?s) = true =>
            change (text_ok s)
        end.
  - reflexivity.
  - repeat (first [assumption | reflexivity | apply text_ok_app]).
  - apply text_ok_app; [reflexivity|]. apply text_ok_app; [|reflexivity].
    apply text_ok_Join; [reflexivity | assumption].
  - repeat (first [assumption | reflexivity | apply text_ok_app]).
  - reflexivity.
  - reflexivity.
  - reflexivity.
  - reflexivity.
  - repeat (first [assumption | reflexivity | apply text_ok_app]).
  - apply no_bare_LF_concat. apply Forall_map.
    eapply Forall_impl; [|exact Hnames].
    intros a Ha. now apply no_bare_LF_attachment_part.
  - reflexivity.
Qed.

Lemma Build_no_bare_LF_witness : no_bare_LF (Build lf_attachment_email) = true.
Proof.
  apply (Build_no_bare_LF lf_attachment_email).
  - reflexivity.
  - repeat constructor.
  - reflexivity.
  - reflexivity.
  - repeat constructor.
Defined.

(** C8 as stated fails: the body text and the attachment data (there is
    none) are free of bare line feeds, the subject is not, and the line
    feed of the subject is in the output with no carriage return before
    it. *)
Lemma Build_bare_LF_from_subject :
  text_ok (body split_subject_email) /\
  Forall (fun a => no_bare_LF (data a) = true)
         (attachments split_subject_email) /\
  no_bare_LF (Build split_subject_email) = false.
Proof.
  split; [reflexivity|]. split; [constructor|]. vm_compute. reflexivity.
Qed.

